(** * Cachease: the in-memory bounded cache (package [memory])

    A shallow embedding of [memory/memory.go] and the properties the
    specification states about it.

    Modelling decisions, all taken from the Go source:

    - [Cache.elements] is a [map[string]Elem]: a map of struct VALUES.
      Reading [c.elements[k]] yields a copy, so assigning to the fields
      of that copy does not touch the map. It is a [gmap string Elem].
    - [range] over a Go map visits the keys in an unspecified order. An
      operation that ranges over the map takes the order of that visit
      as an argument ([order]); [range_order] says that the argument
      lists every key of the map exactly once.
    - [time.Now()] is an input: every clock reading an operation makes is
      an argument, a number of nanoseconds since the Unix epoch.
    - [sync.Pool.Get] may return any item that is in the pool, or nil
      (the pool has no [New]). The choice is an argument ([probe]):
      [None] for nil, [Some i] for the item at position [i]. The pool
      holds values of interface type; the two dynamic types this package
      can meet there are [*Elem] and [Elem].
    - [sync.RWMutex] is not reentrant. The lock is a field of the state;
      acquiring it while it is held cannot proceed, which for the calling
      goroutine means blocking forever ([Blocked]). Deferred unlocks run
      on return and on panic.
    - The operations are run one at a time by one caller. [newCache]
      also starts the janitor ([go c.cleaner.Run(c)]), a second
      goroutine that calls [RemoveExpired] at every tick. A tick that
      returns is a call of [RemoveExpired] like any other. A tick that
      blocks leaves the janitor waiting inside [RemoveExpired] with the
      write lock held, and that is the state the caller finds from then
      on: see [reachable]. *)

From stdpp Require Import gmap strings list fin_maps.
From Stdlib Require Import ZArith.

Local Open Scope Z_scope.

Module Memory.

(** ** Constants *)

(** [time.Minute] in nanoseconds. *)
Definition Minute : Z := 60 * 1000000000.

Definition DEFAULT_EXPIRATION : Z := 10 * Minute.
Definition DEFAULT_CLEAN_DURATION : Z := 10 * Minute.
Definition DEFAULT_CAP : Z := 1024.
Definition DEFAULT_LRU_CLEAN_SIZE : nat := 20.

(** [int64] arithmetic wraps around. *)
Definition wrap64 (z : Z) : Z := (z + 2 ^ 63) `mod` 2 ^ 64 - 2 ^ 63.

(** [1<<(bits.UintSize-1) - 1] on a 64-bit platform. *)
Definition MaxInt : Z := 2 ^ 63 - 1.

(** ** Data *)

(** Cached payloads have type [any]; the cache never looks inside them.
    [Nil] is the nil interface value, which is also what [Get] returns
    for a key it does not find. *)
Inductive any : Type :=
  | Nil
  | Int (n : Z)
  | Str (s : string).

Global Instance any_eq_dec : EqDecision any.
Proof. solve_decision. Defined.

(** [error]: nil or a message. *)
Definition error : Type := option string.

Record Elem : Type := mkElem {
  K : string;
  V : any;
  Expiration : Z;
  LastHit : Z
}.

Global Instance Elem_eq_dec : EqDecision Elem.
Proof. solve_decision. Defined.

(** What an interface value taken from the pool can be: a pointer to an
    [Elem] (what [Put] stores) or an [Elem] (what the type assertions in
    [Get] and [Remove] ask for). *)
Inductive pooled : Type :=
  | PtrElem (e : Elem)
  | ValElem (e : Elem).

Inductive lock_state : Type :=
  | Unlocked
  | RLocked (readers : nat)
  | WLocked.

Record cleaner : Type := mkCleaner { Interval : Z }.

Record Cache : Type := mkCache {
  defaultExpiration : Z;
  elements : gmap string Elem;
  capacity : Z;
  size : Z;
  lock : lock_state;
  pool : list pooled;
  cleaner_of : cleaner
}.

Definition set_elements (m : gmap string Elem) (c : Cache) : Cache :=
  mkCache (defaultExpiration c) m (capacity c) (size c) (lock c) (pool c)
          (cleaner_of c).

Definition set_size (n : Z) (c : Cache) : Cache :=
  mkCache (defaultExpiration c) (elements c) (capacity c) n (lock c) (pool c)
          (cleaner_of c).

Definition set_lock (l : lock_state) (c : Cache) : Cache :=
  mkCache (defaultExpiration c) (elements c) (capacity c) (size c) l (pool c)
          (cleaner_of c).

Definition set_pool (p : list pooled) (c : Cache) : Cache :=
  mkCache (defaultExpiration c) (elements c) (capacity c) (size c) (lock c) p
          (cleaner_of c).

(** ** Calls: return, panic, or block forever *)

Inductive outcome (A : Type) : Type :=
  | Ret (a : A) (c : Cache)
  | Panic (c : Cache)
  | Blocked.

Arguments Ret {A} a c.
Arguments Panic {A} c.
Arguments Blocked {A}.

Definition M (A : Type) : Type := Cache → outcome A.

Definition ret {A} (a : A) : M A := λ c, Ret a c.

Definition bind {A B} (m : M A) (f : A → M B) : M B :=
  λ c, match m c with
       | Ret a c' => f a c'
       | Panic c' => Panic c'
       | Blocked => Blocked
       end.

Definition panic {A} : M A := λ c, Panic c.

Definition modify (f : Cache → Cache) : M unit := λ c, Ret tt (f c).

Notation "'call' x <- m 'in' k" := (bind m (λ x, k))
  (at level 10, x name, m at level 100, k at level 200).
Notation "m >> k" := (bind m (λ _, k))
  (at level 100, k at level 200, right associativity).

(** [defer d; body]: [d] runs when [body] returns and when it panics. *)
Definition deferring {A} (d : Cache → Cache) (body : M A) : M A :=
  λ c, match body c with
       | Ret a c' => Ret a (d c')
       | Panic c' => Panic (d c')
       | Blocked => Blocked
       end.

(** *** The lock *)

Definition Lock : M unit :=
  λ c, match lock c with
       | Unlocked => Ret tt (set_lock WLocked c)
       | _ => Blocked
       end.

Definition Unlock (c : Cache) : Cache := set_lock Unlocked c.

Definition RLock : M unit :=
  λ c, match lock c with
       | Unlocked => Ret tt (set_lock (RLocked 1) c)
       | RLocked n => Ret tt (set_lock (RLocked (S n)) c)
       | WLocked => Blocked
       end.

Definition RUnlock (c : Cache) : Cache :=
  match lock c with
  | RLocked (S (S n)) => set_lock (RLocked (S n)) c
  | _ => set_lock Unlocked c
  end.

(** *** The pool *)

(** What [Get] hands out: nil, or the item it picked. *)
Definition pool_pick (probe : option nat) (p : list pooled) : option pooled :=
  match probe with
  | None => None
  | Some i => p !! i
  end.

(** ... and what stays behind. *)
Definition pool_rest (probe : option nat) (p : list pooled) : list pooled :=
  match probe with
  | None => p
  | Some i => delete i p
  end.

Definition pool_Get (probe : option nat) : M (option pooled) :=
  λ c, Ret (pool_pick probe (pool c)) (set_pool (pool_rest probe (pool c)) c).

Definition pool_Put (x : pooled) : M unit :=
  modify (λ c, set_pool (x :: pool c) c).

(** ** Get *)

(** The type assertion [ele.(Elem)] followed by the key comparison: the
    value the fast path returns, if it returns. *)
Definition Get_fast_path (ele : option pooled) (key : string) : option any :=
  match ele with
  | Some (ValElem item) => if decide (K item = key) then Some (V item) else None
  | _ => None
  end.

Definition Get (t_expire t_hit : Z) (probe : option nat) (key : string)
  : M (any * error) :=
  call ele <- pool_Get probe in
  match Get_fast_path ele key with
  | Some v => ret (v, None)
  | None =>
      let expire := t_expire + DEFAULT_EXPIRATION in
      let lastHit := t_hit in
      deferring RUnlock (
        RLock >>
        λ c, match elements c !! key with
             | Some ele =>
                 (* [ele] is a copy of the map's entry *)
                 let ele := mkElem (K ele) (V ele) expire (LastHit ele) in
                 let ele := mkElem (K ele) (V ele) (Expiration ele) lastHit in
                 Ret (V ele, None) c
             | None => Ret (Nil, None) c
             end)
  end.

(** ** Put *)

Definition update (k : string) (v : any) (expire lastHit : Z) : M bool :=
  λ c, match elements c !! k with
       | Some ele =>
           (* again a copy *)
           let ele := mkElem (K ele) v (Expiration ele) (LastHit ele) in
           let ele := mkElem (K ele) (V ele) expire (LastHit ele) in
           let ele := mkElem (K ele) (V ele) (Expiration ele) lastHit in
           Ret true c
       | None => Ret false c
       end.

(** The variables of the scan in [removeLeastVisited]. *)
Record scan : Type := mkScan {
  lastTime : Z;
  lastItems : list string;
  liCount : nat;
  full : bool
}.

Definition scan_init : scan :=
  mkScan MaxInt (replicate DEFAULT_LRU_CLEAN_SIZE "") 0 false.

(** The body of [for k, v := range c.elements]. *)
Definition scan_step (t : Z) (s : scan) (k : string) (v : Elem) : scan :=
  if Expiration v >? t then
    let atime := LastHit v in
    if negb (full s) || (atime <? lastTime s) then
      if (liCount s <? DEFAULT_LRU_CLEAN_SIZE)%nat then
        mkScan atime (<[liCount s := k]> (lastItems s)) (S (liCount s)) (full s)
      else
        mkScan atime (<[0%nat := k]> (lastItems s)) 1 true
    else s
  else s.

Definition scan_all (t : Z) (m : gmap string Elem) (order : list string) : scan :=
  foldl (λ s k, match m !! k with
                | Some v => scan_step t s k v
                | None => s
                end) scan_init order.

(** [for i := 0; i < len(lastItems) && lastItems[i] != ""; i++] *)
Fixpoint delete_items (items : list string) (m : gmap string Elem)
  : gmap string Elem :=
  match items with
  | [] => m
  | lastName :: rest =>
      if decide (lastName = "") then m
      else delete_items rest (delete lastName m)
  end.

(** The map [removeLeastVisited] leaves: the scan, then the deletions. *)
Definition evict (t : Z) (order : list string) (m : gmap string Elem)
  : gmap string Elem :=
  delete_items (lastItems (scan_all t m order)) m.

Definition removeLeastVisited (t : Z) (order : list string) : M error :=
  deferring Unlock (
    Lock >>
    modify (λ c, set_elements (evict t order (elements c)) c) >>
    ret None).

Definition Put (t_expire t_hit t_evict : Z) (order : list string)
    (key : string) (value : any) : M error :=
  let expire := t_expire + DEFAULT_EXPIRATION in
  let lastHit := t_hit in
  λ c0,
    (call err <- (if wrap64 (size c0 + 1) >? capacity c0
            then removeLeastVisited t_evict order
            else ret None) in
     match err with
     | Some e => ret (Some e)
     | None =>
         deferring Unlock (
           Lock >>
           call found <- update key value expire lastHit in
           if found : bool then ret None
           else
             let ele := mkElem "" value expire lastHit in
             pool_Put (PtrElem ele) >>
             modify (λ c, set_elements (<[key := ele]> (elements c)) c) >>
             modify (λ c, set_size (wrap64 (size c + 1)) c) >>
             ret None)
     end) c0.

(** ** Remove *)

(** [for k := range c.elements { if k == key { delete; return true } }] *)
Fixpoint Remove_range (key : string) (order : list string) : M (bool * error) :=
  match order with
  | [] => ret (false, None)
  | k :: rest =>
      λ c, match elements c !! k with
           | Some _ =>
               if decide (k = key)
               then Ret (true, None) (set_elements (delete key (elements c)) c)
               else Remove_range key rest c
           | None => Remove_range key rest c
           end
  end.

Definition Remove (probe : option nat) (order : list string) (key : string)
  : M (bool * error) :=
  deferring Unlock (
    Lock >>
    call v <- pool_Get probe in
    match v with
    | None => ret tt
    | Some (ValElem e) =>
        if decide (K e ≠ key) then pool_Put (ValElem e) else ret tt
    | Some (PtrElem _) => panic      (* v.(Elem) on a *Elem *)
    end >>
    Remove_range key order).

(** ** Flush *)

Definition Flush (probe : option nat) : M error :=
  deferring Unlock (
    Lock >>
    pool_Get probe >>
    modify (set_elements ∅) >>
    ret None).

(** ** RemoveExpired *)

(** [v.Expiration > 0 && now > v.Expiration] *)
Definition due (now : Z) (v : Elem) : bool :=
  (Expiration v >? 0) && (now >? Expiration v).

Fixpoint RemoveExpired_range (now : Z) (probe : option nat)
    (inner : list string) (order : list string) : M unit :=
  match order with
  | [] => ret tt
  | k :: rest =>
      λ c, match elements c !! k with
           | Some v =>
               if due now v
               then (Remove probe inner k >>
                     RemoveExpired_range now probe inner rest) c
               else RemoveExpired_range now probe inner rest c
           | None => RemoveExpired_range now probe inner rest c
           end
  end.

Definition RemoveExpired (now : Z) (probe : option nat) (order : list string)
  : M unit :=
  deferring Unlock (Lock >> RemoveExpired_range now probe order order).

(** ** Construction *)

(** [newCache] also runs [go c.cleaner.Run(c)]. The janitor it starts
    only ever calls [c.RemoveExpired()], once per tick; its calls are
    steps of [reachable]. *)
Definition newCache (cap expiration clean_duration : Z) : Cache * error :=
  (mkCache expiration ∅ cap 0 Unlocked [] (mkCleaner clean_duration), None).

Definition NewCache (params : list Z) : Cache * error :=
  match params with
  | p :: _ => newCache p DEFAULT_EXPIRATION DEFAULT_CLEAN_DURATION
  | [] => newCache DEFAULT_CAP DEFAULT_EXPIRATION DEFAULT_CLEAN_DURATION
  end.

(** ** Sequences of calls *)

(** [order] is a possible order of [range m]: every key, once. *)
Definition range_order (m : gmap string Elem) (order : list string) : Prop :=
  NoDup order ∧ list_to_set order = dom m.

Global Instance range_order_dec m order : Decision (range_order m order).
Proof. unfold range_order. apply _. Defined.

Inductive op : Type :=
  | OpGet (t_expire t_hit : Z) (probe : option nat) (key : string)
  | OpPut (t_expire t_hit t_evict : Z) (order : list string)
          (key : string) (value : any)
  | OpRemove (probe : option nat) (order : list string) (key : string)
  | OpFlush (probe : option nat)
  | OpRemoveExpired (now : Z) (probe : option nat) (order : list string).

Definition forget {A} (m : M A) : M unit := m >> ret tt.

Definition run_op (o : op) : M unit :=
  match o with
  | OpGet te th probe key => forget (Get te th probe key)
  | OpPut te th tv order key value => forget (Put te th tv order key value)
  | OpRemove probe order key => forget (Remove probe order key)
  | OpFlush probe => forget (Flush probe)
  | OpRemoveExpired now probe order => forget (RemoveExpired now probe order)
  end.

(** The order arguments of a call are orders of the map as the call finds it. *)
Definition op_order (o : op) : option (list string) :=
  match o with
  | OpPut _ _ _ order _ _ => Some order
  | OpRemove _ order _ => Some order
  | OpRemoveExpired _ _ order => Some order
  | _ => None
  end.

Definition valid_op (o : op) (c : Cache) : Prop :=
  match op_order o with
  | Some order => range_order (elements c) order
  | None => True
  end.

(** States the caller of a new cache can find it in. A call that panics
    leaves a state too (the deferred unlock has run) and the caller may
    recover and go on; a call of the caller that blocks leaves none, the
    caller never gets to see one. Between calls the runtime may drop
    items from the pool. The janitor is another goroutine: a tick of
    its that returns is a [reach_ret] step with [OpRemoveExpired]; a
    tick that blocks ([reach_sweep_stuck]) happens behind the caller's
    back and leaves the janitor inside [RemoveExpired], stopped at the
    [Lock] of the first [Remove] it calls, holding the write lock it
    took on entry and having changed nothing else. *)
Inductive reachable : Cache → Prop :=
  | reach_new params : reachable (NewCache params).1
  | reach_ret o c c' :
      reachable c → valid_op o c → run_op o c = Ret tt c' → reachable c'
  | reach_recover o c c' :
      reachable c → valid_op o c → run_op o c = Panic c' → reachable c'
  | reach_pool_drop i c :
      reachable c → reachable (set_pool (delete i (pool c)) c)
  | reach_sweep_stuck now probe order c :
      reachable c → valid_op (OpRemoveExpired now probe order) c →
      RemoveExpired now probe order c = Blocked →
      reachable (set_lock WLocked c).

(** An entry's expiration timestamp has passed at [now]. *)
Definition expired (now : Z) (e : Elem) : Prop := Expiration e < now.

(** Every pooled item is a [*Elem] whose [K] was never set. *)
Definition pool_of_blank_pointers (p : list pooled) : Prop :=
  Forall (λ x, ∃ e, x = PtrElem e ∧ K e = "") p.

Definition quiescent (c : Cache) : Prop :=
  lock c = Unlocked ∧ pool_of_blank_pointers (pool c).

(** The map [Put] works on once the capacity check is over. *)
Definition after_capacity_check (tv : Z) (order : list string) (c : Cache)
  : gmap string Elem :=
  if wrap64 (size c + 1) >? capacity c
  then evict tv order (elements c)
  else elements c.

(** Does the sweep meet an entry it wants to remove? *)
Definition sweep_hits (now : Z) (m : gmap string Elem) (order : list string)
  : bool :=
  existsb (λ k, match m !! k with
                | Some v => due now v
                | None => false
                end) order.

(** What the scan keeps true of its window: twenty slots, each still
    empty or holding the key of an entry that was not expired at [t]. *)
Definition window_ok (t : Z) (m : gmap string Elem) (s : scan) : Prop :=
  length (lastItems s) = DEFAULT_LRU_CLEAN_SIZE
  ∧ Forall (λ k, k = "" ∨ ∃ v, m !! k = Some v ∧ t < Expiration v)
           (lastItems s).

(** ** The caches of the scenarios *)

(** [NewCache(2)] *)
Definition cache_new : Cache := (NewCache [2]).1.

(** The entry [Put("a", 1)] builds when the clock reads 1000 and 1001. *)
Definition elem_a : Elem := mkElem "" (Int 1) (1000 + DEFAULT_EXPIRATION) 1001.
Definition elem_b : Elem := mkElem "" (Int 2) (2000 + DEFAULT_EXPIRATION) 2001.
Definition elem_c : Elem := mkElem "" (Int 3) (3000 + DEFAULT_EXPIRATION) 3001.

(** [NewCache(2); Put("a", 1)] *)
Definition cache_a : Cache :=
  mkCache DEFAULT_EXPIRATION {["a" := elem_a]} 2 1 Unlocked
          [PtrElem elem_a] (mkCleaner DEFAULT_CLEAN_DURATION).

(** [NewCache(2); Put("a", 1); Put("b", 2)] *)
Definition cache_ab : Cache :=
  mkCache DEFAULT_EXPIRATION (<["b" := elem_b]> {["a" := elem_a]}) 2 2 Unlocked
          [PtrElem elem_b; PtrElem elem_a] (mkCleaner DEFAULT_CLEAN_DURATION).

(** [NewCache(2); Put("a", 1); Put("b", 2); Put("c", 3)] *)
Definition cache_abc : Cache :=
  mkCache DEFAULT_EXPIRATION {["c" := elem_c]} 2 3 Unlocked
          [PtrElem elem_c; PtrElem elem_b; PtrElem elem_a]
          (mkCleaner DEFAULT_CLEAN_DURATION).

(** [cache_a] after [Remove("a")] or after [Flush()], the pool probe
    yielding nil in both. *)
Definition cache_a_emptied : Cache :=
  mkCache DEFAULT_EXPIRATION ∅ 2 1 Unlocked
          [PtrElem elem_a] (mkCleaner DEFAULT_CLEAN_DURATION).

(** [NewCache(1); Put("", 1)]: the empty string is a key like any other. *)
Definition cache_new1 : Cache := (NewCache [1]).1.

Definition cache_blank : Cache :=
  mkCache DEFAULT_EXPIRATION {["" := elem_a]} 1 1 Unlocked
          [PtrElem elem_a] (mkCleaner DEFAULT_CLEAN_DURATION).

(** [NewCache(1); Put("", 1); Put("b", 2)] *)
Definition cache_blank_b : Cache :=
  mkCache DEFAULT_EXPIRATION (<["b" := elem_b]> {["" := elem_a]}) 1 2 Unlocked
          [PtrElem elem_b; PtrElem elem_a] (mkCleaner DEFAULT_CLEAN_DURATION).

(** Twenty-one entries, none expiring soon, last hit at 1, 2, ..., 21. *)
Definition stamped (i : nat) : Elem :=
  mkElem "" (Int (Z.of_nat i)) (DEFAULT_EXPIRATION + Z.of_nat i) (Z.of_nat i).

Definition keys21 : list string :=
  ["k01"; "k02"; "k03"; "k04"; "k05"; "k06"; "k07"; "k08"; "k09"; "k10";
   "k11"; "k12"; "k13"; "k14"; "k15"; "k16"; "k17"; "k18"; "k19"; "k20";
   "k21"].

Definition map21 : gmap string Elem :=
  list_to_map (imap (λ i k, (k, stamped (S i))) keys21).

(** A clock reading after [elem_a] has expired. *)
Definition late : Z := 1000 + DEFAULT_EXPIRATION + 1.

(** ** The caller in [main] *)



(** ** Runs *)

(** A sequence of calls, one after the other; a panic or a blocked call
    ends it. *)
Fixpoint run_ops (ops : list op) : M unit :=
  match ops with
  | [] => ret tt
  | o :: rest => run_op o >> run_ops rest
  end.

(** The entry [Put] builds for a new key. *)
Definition fresh_entry (te th : Z) (value : any) : Elem :=
  mkElem "" value (te + DEFAULT_EXPIRATION) th.

(** [cache_a] while somebody holds the write lock. *)
Definition cache_a_locked : Cache := set_lock WLocked cache_a.

(** ** Live entries *)

(** Is there an entry under [k] with [v.Expiration > t]? *)
Definition is_live (t : Z) (m : gmap string Elem) (k : string) : bool :=
  match m !! k with
  | Some v => Expiration v >? t
  | None => false
  end.

(** The keys of the unexpired entries, in the order the scan meets them. *)
Definition live_keys (t : Z) (m : gmap string Elem) (order : list string)
  : list string :=
  List.filter (is_live t m) order.

(** The window while it is filling up: the keys in [l], then empty slots. *)
Definition window_prefix (l : list string) (s : scan) : Prop :=
  lastItems s = l ++ replicate (DEFAULT_LRU_CLEAN_SIZE - length l) ""
  ∧ liCount s = length l
  ∧ full s = false.

(** * Properties *)

(** ** The scenarios are runs of the code *)

Lemma Put_a : Put 1000 1001 1002 [] "a" (Int 1) cache_new = Ret None cache_a.
Proof. vm_compute. reflexivity. Qed.

Lemma Put_b : Put 2000 2001 2002 ["a"] "b" (Int 2) cache_a = Ret None cache_ab.
Proof. vm_compute. reflexivity. Qed.

Lemma Put_c :
  Put 3000 3001 3002 ["a"; "b"] "c" (Int 3) cache_ab = Ret None cache_abc.
Proof. vm_compute. reflexivity. Qed.

Lemma range_order_a : range_order (elements cache_a) ["a"].
Proof. compute_done. Qed.

Lemma range_order_ab : range_order (elements cache_ab) ["a"; "b"].
Proof. compute_done. Qed.

(** ** Bookkeeping *)

Lemma set_lock_id c l : lock c = l → set_lock l c = c.
Proof. destruct c; simpl; intros <-; reflexivity. Qed.

Lemma set_elements_id c : set_elements (elements c) c = c.
Proof. destruct c; reflexivity. Qed.

Lemma set_pool_id c : set_pool (pool c) c = c.
Proof. destruct c; reflexivity. Qed.

Lemma unlock_after_lock c :
  lock c = Unlocked → Unlock (set_lock WLocked c) = c.
Proof. destruct c; simpl; intros ->; reflexivity. Qed.

Lemma pool_rest_blank probe p :
  pool_of_blank_pointers p → pool_of_blank_pointers (pool_rest probe p).
Proof.
  unfold pool_of_blank_pointers. destruct probe as [i|]; simpl; [|done].
  intros Hp. by apply Forall_delete.
Qed.

Lemma pool_pick_blank probe p x :
  pool_of_blank_pointers p → pool_pick probe p = Some x →
  ∃ e, x = PtrElem e ∧ K e = "".
Proof.
  unfold pool_of_blank_pointers. destruct probe as [i|]; simpl; [|done].
  intros Hp Hx. by apply (Forall_lookup_1 _ _ _ _ Hp Hx).
Qed.

Lemma fast_path_blank probe p key :
  pool_of_blank_pointers p → Get_fast_path (pool_pick probe p) key = None.
Proof.
  intros Hp. destruct (pool_pick probe p) as [x|] eqn:Hx; [|done].
  destruct (pool_pick_blank _ _ _ Hp Hx) as (e & -> & _). done.
Qed.

(** ** Get, step by step *)

(** With the lock free and no [Elem] value in the pool, [Get] is the map
    lookup. Nothing but the pool changes. *)
Lemma Get_quiescent te th probe key c :
  quiescent c →
  Get te th probe key c
  = Ret (from_option V Nil (elements c !! key), None)
        (set_pool (pool_rest probe (pool c)) c).
Proof.
  intros [Hl Hp]. unfold Get, bind, pool_Get.
  rewrite (fast_path_blank _ _ _ Hp).
  unfold deferring, bind, RLock. simpl. rewrite Hl. simpl.
  destruct (elements c !! key) as [e|]; simpl;
    f_equal; destruct c; simpl in *; subst; reflexivity.
Qed.

(** ** Put, step by step *)

Lemma removeLeastVisited_unlocked t order c :
  lock c = Unlocked →
  removeLeastVisited t order c
  = Ret None (set_elements (evict t order (elements c)) c).
Proof.
  intros Hl. unfold removeLeastVisited, deferring, bind, Lock, modify, ret.
  rewrite Hl. f_equal. destruct c; simpl in *; subst; reflexivity.
Qed.

Lemma Put_unlocked te th tv order key value c :
  lock c = Unlocked →
  Put te th tv order key value c
  = Ret None
      (let m := after_capacity_check tv order c in
       match m !! key with
       | Some _ => set_elements m c
       | None =>
           let ele := mkElem "" value (te + DEFAULT_EXPIRATION) th in
           mkCache (defaultExpiration c) (<[key := ele]> m) (capacity c)
                   (wrap64 (size c + 1)) Unlocked (PtrElem ele :: pool c)
                   (cleaner_of c)
       end).
Proof.
  intros Hl. unfold Put, after_capacity_check.
  destruct (wrap64 (size c + 1) >? capacity c).
  - unfold bind at 1. rewrite (removeLeastVisited_unlocked _ _ _ Hl).
    unfold deferring, bind, Lock, update, pool_Put, modify, ret. simpl.
    rewrite Hl. simpl.
    destruct (evict tv order (elements c) !! key); simpl;
      f_equal; destruct c; simpl in *; subst; reflexivity.
  - unfold bind at 1. unfold ret at 1.
    unfold deferring, bind, Lock, update, pool_Put, modify, ret. simpl.
    rewrite Hl. simpl.
    destruct (elements c !! key); simpl;
      f_equal; destruct c; simpl in *; subst; reflexivity.
Qed.

(** ** Remove, step by step *)

Lemma Remove_range_ret key order c :
  ∃ b : bool,
    Remove_range key order c
    = Ret (b, None)
          (set_elements (if b then delete key (elements c) else elements c) c).
Proof.
  induction order as [|k rest IH]; simpl.
  - exists false. by rewrite set_elements_id.
  - destruct (elements c !! k); [|exact IH].
    destruct (decide (k = key)); [|exact IH].
    exists true. reflexivity.
Qed.

Lemma Remove_range_found key order c :
  key ∈ order → is_Some (elements c !! key) →
  Remove_range key order c
  = Ret (true, None) (set_elements (delete key (elements c)) c).
Proof.
  intros Hin [e He]. induction order as [|k rest IH]; simpl.
  - by apply elem_of_nil in Hin.
  - destruct (decide (k = key)) as [->|Hne].
    + rewrite He. reflexivity.
    + apply elem_of_cons in Hin as [->|Hin]; [done|].
      destruct (elements c !! k); by apply IH.
Qed.

Lemma Remove_range_absent key order c :
  elements c !! key = None →
  Remove_range key order c = Ret (false, None) c.
Proof.
  intros He. induction order as [|k rest IH]; simpl; [done|].
  destruct (elements c !! k) eqn:Hk; [|exact IH].
  destruct (decide (k = key)) as [->|Hne]; [congruence|exact IH].
Qed.

(** [Remove] when the pool hands out nil. *)
Lemma Remove_nil probe order key c :
  lock c = Unlocked → pool_pick probe (pool c) = None →
  ∃ b : bool,
    Remove probe order key c
    = Ret (b, None)
          (set_elements (if b then delete key (elements c) else elements c)
             (set_pool (pool_rest probe (pool c)) c)).
Proof.
  intros Hl Hpick. unfold Remove, deferring, bind, Lock, pool_Get.
  rewrite Hl. simpl. rewrite Hpick. unfold ret at 1.
  destruct (Remove_range_ret key order
              (set_pool (pool_rest probe (pool c)) (set_lock WLocked c)))
    as [b ->].
  exists b. f_equal. destruct c; simpl in *; subst; reflexivity.
Qed.

(** [Remove] when the pool hands out a [*Elem]. *)
Lemma Remove_pointer probe order key c e :
  lock c = Unlocked → pool_pick probe (pool c) = Some (PtrElem e) →
  Remove probe order key c = Panic (set_pool (pool_rest probe (pool c)) c).
Proof.
  intros Hl Hpick. unfold Remove, deferring, bind, Lock, pool_Get.
  rewrite Hl. simpl. rewrite Hpick. unfold panic.
  f_equal. destruct c; simpl in *; subst; reflexivity.
Qed.

(** [Remove] when the pool hands out an [Elem]. *)
Lemma Remove_value probe order key c e :
  lock c = Unlocked → pool_pick probe (pool c) = Some (ValElem e) →
  ∃ (b : bool) p,
    Remove probe order key c
    = Ret (b, None)
          (set_elements (if b then delete key (elements c) else elements c)
             (set_pool p c)).
Proof.
  intros Hl Hpick. unfold Remove, deferring, bind, Lock, pool_Get.
  rewrite Hl. simpl. rewrite Hpick.
  destruct (decide (K e ≠ key)).
  - unfold pool_Put, modify.
    match goal with |- context [Remove_range key order ?c1] =>
      destruct (Remove_range_ret key order c1) as [b ->] end.
    exists b, (ValElem e :: pool_rest probe (pool c)).
    f_equal. destruct c; simpl in *; subst; reflexivity.
  - unfold ret at 1.
    match goal with |- context [Remove_range key order ?c1] =>
      destruct (Remove_range_ret key order c1) as [b ->] end.
    exists b, (pool_rest probe (pool c)).
    f_equal. destruct c; simpl in *; subst; reflexivity.
Qed.

(** A call of [Remove] while the lock is held never gets past [Lock]. *)
Lemma Remove_locked probe order key c :
  lock c ≠ Unlocked → Remove probe order key c = Blocked.
Proof.
  intros Hl. unfold Remove, deferring, bind, Lock.
  destruct (lock c); done.
Qed.

(** ** Flush, step by step *)

Lemma Flush_unlocked probe c :
  lock c = Unlocked →
  Flush probe c
  = Ret None (set_elements ∅ (set_pool (pool_rest probe (pool c)) c)).
Proof.
  intros Hl. unfold Flush, deferring, bind, Lock, pool_Get, modify, ret.
  rewrite Hl. f_equal. destruct c; simpl in *; subst; reflexivity.
Qed.

(** ** RemoveExpired, step by step *)

(** The sweep runs with the lock held, so the first entry that is due
    stops it for good: its [Remove] waits for the lock. *)
Lemma RemoveExpired_range_locked now probe inner order c :
  lock c ≠ Unlocked →
  RemoveExpired_range now probe inner order c
  = if sweep_hits now (elements c) order then Blocked else Ret tt c.
Proof.
  intros Hl. induction order as [|k rest IH]; simpl; [done|].
  destruct (elements c !! k) as [v|]; [|exact IH].
  destruct (due now v); simpl; [|exact IH].
  unfold bind. by rewrite Remove_locked.
Qed.

Lemma RemoveExpired_unlocked now probe order c :
  lock c = Unlocked →
  RemoveExpired now probe order c
  = if sweep_hits now (elements c) order then Blocked else Ret tt c.
Proof.
  intros Hl. unfold RemoveExpired, deferring, bind, Lock. rewrite Hl.
  rewrite RemoveExpired_range_locked by done. simpl.
  destruct (sweep_hits now (elements c) order); [done|].
  f_equal. by apply unlock_after_lock.
Qed.

Lemma sweep_hits_true now m order :
  range_order m order →
  sweep_hits now m order = true
  ↔ ∃ k v, m !! k = Some v ∧ 0 < Expiration v ∧ Expiration v < now.
Proof.
  intros [_ Hdom]. unfold sweep_hits. rewrite existsb_exists. split.
  - intros (k & _ & Hk). destruct (m !! k) as [v|] eqn:Hv; [|done].
    exists k, v. unfold due in Hk. split; [done|]. lia.
  - intros (k & v & Hv & H0 & Hnow). exists k. split.
    + apply list_elem_of_In.
      assert (k ∈ dom m) as Hin by (apply elem_of_dom; eauto).
      rewrite <- Hdom in Hin. by apply elem_of_list_to_set in Hin.
    + rewrite Hv. unfold due. apply andb_true_intro. split; lia.
Qed.

(** ** What every reachable state looks like *)

Lemma forget_ret {A} (m : M A) c c' :
  forget m c = Ret tt c' → ∃ a, m c = Ret a c'.
Proof.
  unfold forget, bind, ret. destruct (m c) as [a c1| |]; [|done..].
  intros [= <-]. eauto.
Qed.

Lemma forget_panic {A} (m : M A) c c' :
  forget m c = Panic c' → m c = Panic c'.
Proof.
  unfold forget, bind, ret. destruct (m c) as [a c1|c1|]; [done| |done].
  intros [= <-]. reflexivity.
Qed.

Lemma quiescent_pool_rest probe c :
  quiescent c → quiescent (set_pool (pool_rest probe (pool c)) c).
Proof. intros [Hl Hp]. split; [done|]. by apply pool_rest_blank. Qed.

Lemma run_op_quiescent o c c' :
  quiescent c → run_op o c = Ret tt c' ∨ run_op o c = Panic c' → quiescent c'.
Proof.
  intros Hq Hrun. pose proof Hq as [Hl Hp].
  destruct o as [te th probe key|te th tv order key value|probe order key
                |probe|now probe order]; simpl in Hrun;
    (destruct Hrun as [Hrun|Hrun];
     [apply forget_ret in Hrun as [a Hrun]|apply forget_panic in Hrun]).
  1,2: rewrite (Get_quiescent _ _ _ _ _ Hq) in Hrun; simplify_eq;
       by apply quiescent_pool_rest.
  1,2: rewrite (Put_unlocked _ _ _ _ _ _ _ Hl) in Hrun; simplify_eq; simpl;
       destruct (after_capacity_check tv order c !! key); try done;
       split; try done; simpl; constructor; eauto.
  1,2: destruct (pool_pick probe (pool c)) as [x|] eqn:Hpick;
       [ destruct (pool_pick_blank _ _ _ Hp Hpick) as (e & -> & _);
         rewrite (Remove_pointer _ _ _ _ _ Hl Hpick) in Hrun; simplify_eq;
         by apply quiescent_pool_rest
       | destruct (Remove_nil _ order key _ Hl Hpick) as [b Hb];
         rewrite Hb in Hrun; simplify_eq;
         by apply (quiescent_pool_rest probe) ].
  1,2: rewrite (Flush_unlocked _ _ Hl) in Hrun; simplify_eq;
       by apply (quiescent_pool_rest probe).
  1,2: rewrite (RemoveExpired_unlocked _ _ _ _ Hl) in Hrun;
       destruct (sweep_hits now (elements c) order); by simplify_eq.
Qed.

(** With the write lock held nothing completes: every call blocks. *)
Lemma run_op_locked o c :
  lock c = WLocked → pool_of_blank_pointers (pool c) → run_op o c = Blocked.
Proof.
  intros Hl Hp.
  destruct o as [te th probe key|te th tv order key value|probe order key
                |probe|now probe order]; simpl; unfold forget, bind.
  - unfold Get, bind, pool_Get. rewrite (fast_path_blank _ _ _ Hp).
    unfold deferring, bind, RLock. simpl. by rewrite Hl.
  - unfold Put. destruct (_ >? _).
    + unfold bind, removeLeastVisited, deferring, bind, Lock.
      by rewrite Hl.
    + unfold bind, ret, deferring, bind, Lock. by rewrite Hl.
  - rewrite Remove_locked; [done|]. by rewrite Hl.
  - unfold Flush, deferring, bind, Lock. by rewrite Hl.
  - unfold RemoveExpired, deferring, bind, Lock. by rewrite Hl.
Qed.

(** In every state the caller can find, the pool is as [Put] fills it,
    and the lock is free or held by the blocked sweep. *)
Lemma reachable_shape c :
  reachable c →
  pool_of_blank_pointers (pool c) ∧ (lock c = Unlocked ∨ lock c = WLocked).
Proof.
  induction 1 as [params|o c c' _ [Hp Hl] _ Hrun|o c c' _ [Hp Hl] _ Hrun
                 |i c _ [Hp Hl]|now probe order c _ [Hp Hl] _ _].
  - destruct params; split; simpl; try by constructor. all: by left.
  - destruct Hl as [Hl|Hl].
    + destruct (run_op_quiescent o c c' (conj Hl Hp) (or_introl Hrun)).
      split; [done|by left].
    + rewrite (run_op_locked o c Hl Hp) in Hrun. done.
  - destruct Hl as [Hl|Hl].
    + destruct (run_op_quiescent o c c' (conj Hl Hp) (or_intror Hrun)).
      split; [done|by left].
    + rewrite (run_op_locked o c Hl Hp) in Hrun. done.
  - split; [|done]. simpl. by apply Forall_delete.
  - split; [done|by right].
Qed.

Lemma reachable_quiescent c : reachable c → lock c = Unlocked → quiescent c.
Proof. intros Hr Hl. split; [done|]. by apply reachable_shape. Qed.

(** A call that completes found the lock free. *)
Lemma reachable_completes o c c' :
  reachable c → run_op o c = Ret tt c' ∨ run_op o c = Panic c' → quiescent c.
Proof.
  intros Hr Hrun. destruct (reachable_shape c Hr) as [Hp [Hl|Hl]]; [done|].
  rewrite (run_op_locked o c Hl Hp) in Hrun. by destruct Hrun.
Qed.

Lemma reachable_cache_a : reachable cache_a.
Proof.
  apply (reach_ret (OpPut 1000 1001 1002 [] "a" (Int 1)) cache_new).
  - apply (reach_new [2]).
  - compute_done.
  - simpl. unfold forget, bind. rewrite Put_a. reflexivity.
Qed.

(** ** Reading an expired entry *)

(** C1, as stated, fails. [NewCache(2); Put("a", 1)] with the clock at
    1000: the entry expires at 1000 + 10 minutes. A [Get("a")] one
    nanosecond after that still returns 1; it is not a miss. *)
Lemma Get_expired_returns_value :
  reachable cache_a
  ∧ elements cache_a !! "a" = Some elem_a
  ∧ expired late elem_a
  ∧ V elem_a = Int 1
  ∧ Get late late None "a" cache_a = Ret (Int 1, None) cache_a.
Proof.
  split; [exact reachable_cache_a|].
  split; [vm_compute; reflexivity|].
  split; [vm_compute; reflexivity|].
  split; [reflexivity|].
  vm_compute; reflexivity.
Qed.

(** C1 (amended): [Get] does not treat an expired entry as a miss. In
    every reachable state in which the lock is free, [Get(k)] returns
    the value stored under [k] whenever [k] is in the elements map,
    whether or not the entry's expiration timestamp has passed at the
    time of the call; [Get(k)] returns nil when [k] is not in the
    map. *)
Theorem Get_ignores_expiration c te th probe key :
  reachable c → lock c = Unlocked →
  (∀ e, elements c !! key = Some e →
        ∃ c', Get te th probe key c = Ret (V e, None) c')
  ∧ (elements c !! key = None →
     ∃ c', Get te th probe key c = Ret (Nil, None) c').
Proof.
  intros Hr Hl. pose proof (reachable_quiescent c Hr Hl) as Hq.
  rewrite (Get_quiescent te th probe key c Hq).
  split.
  - intros e ->. eexists. reflexivity.
  - intros ->. eexists. reflexivity.
Qed.

Lemma Get_ignores_expiration_witness :
  expired late elem_a
  ∧ ∃ c', Get late late None "a" cache_a = Ret (V elem_a, None) c'.
Proof.
  split; [vm_compute; reflexivity|].
  apply (proj1 (Get_ignores_expiration cache_a late late None "a"
                  reachable_cache_a eq_refl) elem_a).
  vm_compute; reflexivity.
Defined.

(** ** The pool and its two type assertions *)

(** C9: [Remove] can panic. After a [Put] has stored its [*Elem] in the
    pool ([NewCache(2); Put("a", 1)]), a [Remove] whose pool probe gets
    that pointer panics at [v.(Elem)]. Whenever the lock is free and the
    probe yields a [*Elem], [Remove] panics; [Remove] only ever returns
    when the probe yielded nil or an [Elem] value; and with the lock free
    it does return in those two cases. *)
Theorem Remove_panics_on_pooled_pointer :
  (reachable cache_a
   ∧ range_order (elements cache_a) ["a"]
   ∧ pool_pick (Some 0%nat) (pool cache_a) = Some (PtrElem elem_a)
   ∧ ∃ c', Remove (Some 0%nat) ["a"] "a" cache_a = Panic c')
  ∧ (∀ c probe order key e,
       lock c = Unlocked → pool_pick probe (pool c) = Some (PtrElem e) →
       ∃ c', Remove probe order key c = Panic c')
  ∧ (∀ c probe order key r c',
       Remove probe order key c = Ret r c' →
       pool_pick probe (pool c) = None
       ∨ ∃ e, pool_pick probe (pool c) = Some (ValElem e))
  ∧ (∀ c probe order key,
       lock c = Unlocked →
       pool_pick probe (pool c) = None
       ∨ (∃ e, pool_pick probe (pool c) = Some (ValElem e)) →
       ∃ r c', Remove probe order key c = Ret r c').
Proof.
  split; [|split; [|split]].
  - split; [exact reachable_cache_a|].
    split; [exact range_order_a|].
    split; [reflexivity|].
    eexists. apply (Remove_pointer _ _ _ _ elem_a); reflexivity.
  - intros c probe order key e Hl Hpick. eexists.
    by apply (Remove_pointer _ _ _ _ e).
  - intros c probe order key r c' HR.
    destruct (lock c) eqn:Hl.
    + destruct (pool_pick probe (pool c)) as [[e|e]|] eqn:Hpick; eauto.
      rewrite (Remove_pointer _ _ _ _ e Hl Hpick) in HR. discriminate.
    + rewrite Remove_locked in HR by congruence. discriminate.
    + rewrite Remove_locked in HR by congruence. discriminate.
  - intros c probe order key Hl [Hpick|[e Hpick]].
    + destruct (Remove_nil _ order key _ Hl Hpick) as [b ->]. eauto.
    + destruct (Remove_value _ order key _ _ Hl Hpick) as (b & p & ->). eauto.
Qed.

Lemma Remove_panics_on_pooled_pointer_witness :
  (∃ c', Remove (Some 0%nat) ["a"] "a" cache_a = Panic c')
  ∧ (pool_pick None (pool cache_a) = None
     ∨ ∃ e, pool_pick None (pool cache_a) = Some (ValElem e)).
Proof.
  pose proof Remove_panics_on_pooled_pointer as (_ & Hpanic & Hret & _).
  split.
  - apply (Hpanic cache_a (Some 0%nat) ["a"] "a" elem_a); reflexivity.
  - apply (Hret cache_a None ["a"] "a" (true, None) cache_a_emptied).
    vm_compute; reflexivity.
Defined.

(** C10: in every state a sequence of public operations can reach, the
    pool holds only [*Elem] pointers whose [K] is the empty string, as
    [Put] stored them. So the fast path of [Get] (the type assertion
    [ele.(Elem)] and the key comparison) never returns, whatever the
    probe picks and whatever the key, and [Get] returns what the elements
    map holds under the key, nil if nothing. The one reachable state in
    which [Get] does not return at all is the one where a blocked sweep
    holds the write lock. *)
Theorem Get_fast_path_unreachable c :
  reachable c →
  pool_of_blank_pointers (pool c)
  ∧ ∀ te th probe key,
      Get_fast_path (pool_pick probe (pool c)) key = None
      ∧ match lock c with
        | WLocked => Get te th probe key c = Blocked
        | _ => ∃ c', Get te th probe key c
                     = Ret (from_option V Nil (elements c !! key), None) c'
        end.
Proof.
  intros Hr. destruct (reachable_shape c Hr) as [Hp Hl].
  split; [exact Hp|]. intros te th probe key. split.
  - by apply fast_path_blank.
  - destruct Hl as [Hl|Hl]; rewrite Hl.
    + rewrite (Get_quiescent te th probe key c (conj Hl Hp)). eauto.
    + pose proof (run_op_locked (OpGet te th probe key) c Hl Hp) as HB.
      simpl in HB. unfold forget, bind in HB.
      by destruct (Get te th probe key c).
Qed.

Lemma Get_fast_path_unreachable_witness :
  Get_fast_path (pool_pick (Some 0%nat) (pool cache_a)) "" = None
  ∧ ∃ c', Get 5000 5001 (Some 0%nat) "a" cache_a
          = Ret (from_option V Nil (elements cache_a !! "a"), None) c'.
Proof.
  destruct (Get_fast_path_unreachable cache_a reachable_cache_a) as [_ H].
  split.
  - apply (H 5000 5001 (Some 0%nat) "").
  - apply (H 5000 5001 (Some 0%nat) "a").
Defined.

(** ** The size counter *)

(** C2: the code breaks the capacity bound. [NewCache(2)], then
    [Put("a", 1)], [Put("b", 2)], [Put("c", 3)]: the third [Put] finds
    [size + 1 > capacity], evicts (both "a" and "b": the window takes
    every entry of a map this small), inserts "c" and counts it, but
    nothing ever counted the evictions. [size] is 3, [capacity] is 2. *)
Theorem Put_pushes_size_over_capacity :
  Put 1000 1001 1002 [] "a" (Int 1) cache_new = Ret None cache_a
  ∧ Put 2000 2001 2002 ["a"] "b" (Int 2) cache_a = Ret None cache_ab
  ∧ Put 3000 3001 3002 ["a"; "b"] "c" (Int 3) cache_ab = Ret None cache_abc
  ∧ capacity cache_abc = 2
  ∧ size cache_abc = 3
  ∧ capacity cache_abc < size cache_abc.
Proof.
  split; [exact Put_a|]. split; [exact Put_b|]. split; [exact Put_c|].
  split; [reflexivity|]. split; reflexivity.
Qed.

(** C3: the code lets [size] drift from the number of entries. Only
    [Put] writes [size], and only to add one. On [NewCache(2); Put("a", 1)]
    a [Remove("a")] deletes the entry and leaves [size] at 1; so does a
    [Flush()]; and after the eviction of the scenario of C2 the map has
    one entry and [size] is 3. *)
Theorem size_drifts_from_entry_count :
  Remove None ["a"] "a" cache_a = Ret (true, None) cache_a_emptied
  ∧ Flush None cache_a = Ret None cache_a_emptied
  ∧ base.size (elements cache_a_emptied) = 0%nat
  ∧ size cache_a_emptied = 1
  ∧ Put 3000 3001 3002 ["a"; "b"] "c" (Int 3) cache_ab = Ret None cache_abc
  ∧ base.size (elements cache_abc) = 1%nat
  ∧ size cache_abc = 3.
Proof.
  split; [vm_compute; reflexivity|]. split; [vm_compute; reflexivity|].
  split; [vm_compute; reflexivity|]. split; [reflexivity|].
  split; [exact Put_c|]. split; [vm_compute; reflexivity|]. reflexivity.
Qed.

(** C8: [Flush] does not reset [size]. On [NewCache(2); Put("a", 1)] it
    empties the map and leaves [size] at 1; a second [Flush], now on an
    empty cache, returns with [size] still 1. (The rest of the claim
    holds: see [Get_after_Flush].) *)
Theorem Flush_keeps_size :
  Flush None cache_a = Ret None cache_a_emptied
  ∧ elements cache_a_emptied = ∅
  ∧ size cache_a_emptied = 1
  ∧ Flush None cache_a_emptied = Ret None cache_a_emptied.
Proof.
  split; [vm_compute; reflexivity|]. split; [reflexivity|].
  split; [reflexivity|]. vm_compute; reflexivity.
Qed.

(** What does hold of [Flush]: with the lock free it returns, the map is
    empty, and a [Get] right after it finds nothing. *)
Lemma Get_after_Flush c probe te th probe' key :
  reachable c → lock c = Unlocked →
  ∃ c1 c2, Flush probe c = Ret None c1
           ∧ elements c1 = ∅
           ∧ size c1 = size c
           ∧ Get te th probe' key c1 = Ret (Nil, None) c2.
Proof.
  intros Hr Hl. pose proof (reachable_quiescent c Hr Hl) as [_ Hp].
  rewrite (Flush_unlocked _ _ Hl).
  eexists _, _. split; [reflexivity|]. split; [reflexivity|].
  split; [reflexivity|].
  rewrite Get_quiescent.
  - simpl. rewrite lookup_empty. reflexivity.
  - split; [done|]. simpl. by apply pool_rest_blank.
Qed.

(** ** Writes that land on a copy *)

Lemma Get_keeps_elements te th probe key c r c' :
  Get te th probe key c = Ret r c' → elements c' = elements c.
Proof.
  unfold Get, bind, pool_Get.
  destruct (Get_fast_path _ _); [intros [= _ <-]; reflexivity|].
  unfold deferring, bind, RLock. simpl.
  destruct (lock c) as [|n|]; simpl; [| |done];
    (destruct (elements c !! key); intros [= _ <-];
     unfold RUnlock; simpl; by repeat case_match).
Qed.

(** C4: [Get] does not refresh the entry. On [NewCache(2); Put("a", 1)]
    (clock at 1000 and 1001) a [Get("a")] with the clock at 5000 and
    5001 returns 1 and leaves the cache as it was: the entry under "a"
    still has last hit 1001 and expiration 1000 + 10 minutes, not 5001
    and 5000 + 10 minutes. The new timestamps went into the copy of the
    entry that the map lookup returned. *)
Theorem Get_leaves_timestamps :
  Get 5000 5001 None "a" cache_a = Ret (Int 1, None) cache_a
  ∧ elements cache_a !! "a" = Some elem_a
  ∧ LastHit elem_a = 1001
  ∧ Expiration elem_a = 1000 + DEFAULT_EXPIRATION
  ∧ LastHit elem_a < 5001
  ∧ Expiration elem_a < 5000 + DEFAULT_EXPIRATION.
Proof.
  split; [vm_compute; reflexivity|]. split; [vm_compute; reflexivity|].
  split; [reflexivity|]. split; [reflexivity|].
  split; vm_compute; reflexivity.
Qed.

Lemma Put_existing_no_effect te th tv order key value c :
  lock c = Unlocked → wrap64 (size c + 1) <= capacity c →
  is_Some (elements c !! key) →
  Put te th tv order key value c = Ret None c.
Proof.
  intros Hl Hcap [e He]. rewrite (Put_unlocked _ _ _ _ _ _ _ Hl).
  unfold after_capacity_check.
  destruct (Z.gtb_spec (wrap64 (size c + 1)) (capacity c)); [lia|].
  simpl. rewrite He. by rewrite set_elements_id.
Qed.

(** C5: [Put] on a key that is present does not replace anything. On
    [NewCache(2); Put("a", 1)] a [Put("a", 2)] with the clock at 5000 and
    5001 returns nil and leaves the cache as it was: the entry under "a"
    still holds 1 and the old timestamps, and the next [Get("a")]
    returns 1. [update] assigned to a copy of the entry. *)
Theorem Put_keeps_old_value :
  Put 5000 5001 5002 ["a"] "a" (Int 2) cache_a = Ret None cache_a
  ∧ elements cache_a !! "a" = Some elem_a
  ∧ V elem_a = Int 1
  ∧ Get 6000 6001 None "a" cache_a = Ret (Int 1, None) cache_a.
Proof.
  split; [vm_compute; reflexivity|]. split; [vm_compute; reflexivity|].
  split; [reflexivity|]. vm_compute; reflexivity.
Qed.

(** ** The sweep *)

Lemma RemoveExpired_blocks_iff now probe order c :
  lock c = Unlocked → range_order (elements c) order →
  RemoveExpired now probe order c = Blocked
  ↔ ∃ k v, elements c !! k = Some v ∧ 0 < Expiration v ∧ Expiration v < now.
Proof.
  intros Hl Ho. rewrite (RemoveExpired_unlocked _ _ _ _ Hl).
  rewrite <- (sweep_hits_true now _ _ Ho).
  by destruct (sweep_hits now (elements c) order).
Qed.

(** C6: [RemoveExpired] does not return when there is something to
    remove. It takes the lock and, for the first expired entry it meets,
    calls [Remove], which takes the same lock again: the call waits
    forever. On [NewCache(2); Put("a", 1)], one nanosecond after "a" has
    expired, [RemoveExpired] blocks; "a" is never deleted. *)
Theorem RemoveExpired_blocks_on_expired_entry :
  reachable cache_a
  ∧ range_order (elements cache_a) ["a"]
  ∧ elements cache_a !! "a" = Some elem_a
  ∧ expired late elem_a
  ∧ RemoveExpired late None ["a"] cache_a = Blocked.
Proof.
  split; [exact reachable_cache_a|]. split; [exact range_order_a|].
  split; [vm_compute; reflexivity|]. split; vm_compute; reflexivity.
Qed.

(** ** Eviction *)

Lemma scan_step_ok t m s k v :
  m !! k = Some v → window_ok t m s → window_ok t m (scan_step t s k v).
Proof.
  intros Hk [Hlen Hall]. unfold scan_step.
  destruct (Z.gtb_spec (Expiration v) t) as [Hexp|]; [|done].
  destruct (negb (full s) || (LastHit v <? lastTime s)); [|done].
  destruct (liCount s <? DEFAULT_LRU_CLEAN_SIZE)%nat; split; simpl;
    rewrite ?length_insert; try done;
    (apply Forall_insert; [done|right; eauto]).
Qed.

Lemma scan_all_ok t m order : window_ok t m (scan_all t m order).
Proof.
  unfold scan_all.
  assert (window_ok t m scan_init) as Hinit.
  { split; [reflexivity|]. apply Forall_replicate. by left. }
  revert Hinit. generalize scan_init.
  induction order as [|k rest IH]; intros s Hs; simpl; [done|].
  apply IH. destruct (m !! k) eqn:Hk; [|done]. by apply scan_step_ok.
Qed.

Lemma delete_items_lookup items m k :
  delete_items items m !! k = None → m !! k = None ∨ (k ∈ items ∧ k ≠ "").
Proof.
  revert m. induction items as [|i rest IH]; intros m; simpl; [by left|].
  destruct (decide (i = "")) as [->|Hi]; [by left|].
  intros Hk. apply IH in Hk as [Hk|[Hk Hne]].
  - destruct (decide (i = k)) as [->|Hik].
    + right. split; [left|done].
    + left. by rewrite lookup_delete_ne in Hk.
  - right. split; [by right|done].
Qed.

Lemma delete_items_size items m :
  (base.size m ≤ base.size (delete_items items m) + length items)%nat.
Proof.
  revert m. induction items as [|i rest IH]; intros m; simpl; [lia|].
  destruct (decide (i = "")); [lia|].
  specialize (IH (delete i m)).
  destruct (m !! i) eqn:Hi.
  - rewrite map_size_delete_Some in IH by eauto. lia.
  - rewrite delete_id in IH |- * by done. lia.
Qed.

(** The part of C7 that holds of the code as it is: eviction deletes at
    most twenty entries, each of them not expired at the time of the
    scan. *)
Lemma evict_only_unexpired t order m k v :
  m !! k = Some v → evict t order m !! k = None → t < Expiration v.
Proof.
  intros Hk Hgone. unfold evict in Hgone.
  apply delete_items_lookup in Hgone as [?|[Hin Hne]]; [congruence|].
  destruct (scan_all_ok t m order) as [_ Hall].
  rewrite Forall_forall in Hall. destruct (Hall k Hin) as [?|(v' & Hv' & ?)].
  - done.
  - congruence.
Qed.

Lemma evict_at_most_window t order m :
  (base.size m ≤ base.size (evict t order m) + DEFAULT_LRU_CLEAN_SIZE)%nat.
Proof.
  unfold evict. destruct (scan_all_ok t m order) as [<- _].
  apply delete_items_size.
Qed.

(** ... and [Put] returns with its key in the map, eviction or not. *)
Lemma Put_key_present te th tv order key value c :
  lock c = Unlocked →
  ∃ c', Put te th tv order key value c = Ret None c'
        ∧ is_Some (elements c' !! key).
Proof.
  intros Hl. rewrite (Put_unlocked _ _ _ _ _ _ _ Hl). eexists. split; [done|].
  simpl. destruct (after_capacity_check tv order c !! key) eqn:Hk; simpl.
  - eauto.
  - rewrite lookup_insert_eq. eauto.
Qed.

(** The window is not made of the least recently accessed entries. Of
    twenty-one unexpired entries visited in the order of their last hit,
    the twenty-first overwrites slot 0 and the first twenty minus that
    slot stay: eviction deletes the twenty most recently accessed entries
    and spares the least recently accessed one. *)
Lemma evict_spares_least_recent :
  range_order map21 keys21
  ∧ evict 1000 keys21 map21 = {["k01" := stamped 1]}.
Proof. split; [compute_done|]. vm_compute. reflexivity. Qed.

(** C7: eviction can come back empty-handed from a store with an
    unexpired entry. The deletion loop reads the window up to the first
    empty string, and the empty string is a key [Put] accepts:
    [NewCache(1); Put("", 1)] is at capacity with one unexpired entry,
    the eviction that [Put("b", 2)] triggers puts "" in slot 0 and then
    deletes nothing, and the store ends with two entries for a capacity
    of one. (What holds of the claim: [evict_only_unexpired],
    [evict_at_most_window], [Put_key_present]; on the choice of the
    window see [evict_spares_least_recent].) *)
Theorem eviction_stops_at_empty_key :
  Put 1000 1001 1002 [] "" (Int 1) cache_new1 = Ret None cache_blank
  ∧ range_order (elements cache_blank) [""]
  ∧ elements cache_blank !! "" = Some elem_a
  ∧ 2002 < Expiration elem_a
  ∧ (wrap64 (size cache_blank + 1) >? capacity cache_blank) = true
  ∧ lastItems (scan_all 2002 (elements cache_blank) [""])
    = replicate DEFAULT_LRU_CLEAN_SIZE ""
  ∧ evict 2002 [""] (elements cache_blank) = elements cache_blank
  ∧ Put 2000 2001 2002 [""] "b" (Int 2) cache_blank = Ret None cache_blank_b
  ∧ base.size (elements cache_blank_b) = 2%nat
  ∧ capacity cache_blank_b = 1.
Proof.
  repeat split; try (vm_compute; reflexivity); compute_done.
Qed.

(** * Further properties of the code *)

(** ** Put and Get together *)

Lemma delete_items_lookup_Some items m k v :
  delete_items items m !! k = Some v → m !! k = Some v.
Proof.
  revert m. induction items as [|i rest IH]; intros m; simpl; [done|].
  destruct (decide (i = "")); [done|].
  intros Hk. apply IH in Hk. by apply lookup_delete_Some in Hk as [_ Hk].
Qed.

Lemma evict_lookup_Some t order m k v :
  evict t order m !! k = Some v → m !! k = Some v.
Proof. apply delete_items_lookup_Some. Qed.

Lemma after_capacity_check_lookup_Some tv order c k v :
  after_capacity_check tv order c !! k = Some v → elements c !! k = Some v.
Proof.
  unfold after_capacity_check. destruct (_ >? _); [|done].
  apply evict_lookup_Some.
Qed.








Lemma reachable_cache_ab : reachable cache_ab.
Proof.
  apply (reach_ret (OpPut 2000 2001 2002 ["a"] "b" (Int 2)) cache_a).
  - exact reachable_cache_a.
  - exact range_order_a.
  - vm_compute; reflexivity.
Qed.

(** X3: below capacity, [Put] on a key that is in the map does nothing
    at all. In any state with the lock free and [size + 1 <= capacity],
    a [Put(key, value)] on a present key returns nil and leaves the
    whole cache (map, size, pool) as it was, and a [Get(key)] that finds
    the cache in that state, its pool probe yielding nil, returns the
    value that was stored before. *)
Theorem Put_present_below_capacity c te th tv order key value e te' th' :
  lock c = Unlocked → wrap64 (size c + 1) <= capacity c →
  elements c !! key = Some e →
  Put te th tv order key value c = Ret None c
  ∧ Get te' th' None key c = Ret (V e, None) c.
Proof.
  intros Hl Hcap He.
  split.
  - apply Put_existing_no_effect; [done|done|eauto].
  - unfold Get, bind, pool_Get. simpl.
    unfold deferring, bind, RLock. simpl. rewrite Hl. simpl. rewrite He.
    simpl. f_equal. destruct c; simpl in *; subst; reflexivity.
Qed.

Lemma Put_present_below_capacity_witness :
  Put 7000 7001 7002 ["b"; "a"] "a" (Str "new") cache_a = Ret None cache_a
  ∧ Get 8000 8001 None "a" cache_a = Ret (V elem_a, None) cache_a.
Proof.
  apply (Put_present_below_capacity cache_a 7000 7001 7002 ["b"; "a"] "a"
           (Str "new") elem_a 8000 8001).
  - reflexivity.
  - vm_compute. discriminate.
  - vm_compute; reflexivity.
Defined.

(** ** Remove *)

Lemma range_order_elem m order k :
  range_order m order → is_Some (m !! k) → k ∈ order.
Proof.
  intros [_ Hdom] Hk. apply elem_of_dom in Hk. rewrite <- Hdom in Hk.
  by apply elem_of_list_to_set in Hk.
Qed.

(** X4: what [Remove] does in a reachable state in which the lock is
    free. If the pool probe yields nil, [Remove(key)] returns [true]
    exactly when the key was in the map, the map afterwards is the old
    one without the key (all other entries untouched), [size] is not
    changed, and a [Get(key)] that finds the cache as [Remove] left it
    returns nil. If the probe yields an item, [Remove] panics, having
    deleted nothing, and the lock is free again. *)
Theorem Remove_in_reachable_state c probe order key :
  reachable c → lock c = Unlocked → range_order (elements c) order →
  match pool_pick probe (pool c) with
  | None =>
      ∃ c', Remove probe order key c
            = Ret (bool_decide (is_Some (elements c !! key)), None) c'
            ∧ elements c' = delete key (elements c)
            ∧ size c' = size c
            ∧ ∀ te th probe', ∃ c2, Get te th probe' key c' = Ret (Nil, None) c2
  | Some _ =>
      ∃ c', Remove probe order key c = Panic c'
            ∧ elements c' = elements c
            ∧ size c' = size c
            ∧ lock c' = Unlocked
  end.
Proof.
  intros Hr Hl Ho. apply reachable_quiescent in Hr; [|done].
  pose proof Hr as [_ Hp].
  destruct (pool_pick probe (pool c)) as [x|] eqn:Hpick.
  - destruct (pool_pick_blank _ _ _ Hp Hpick) as (e & -> & _).
    rewrite (Remove_pointer _ _ _ _ _ Hl Hpick). eexists.
    split; [reflexivity|]. done.
  - assert (∃ c', Remove probe order key c
                  = Ret (bool_decide (is_Some (elements c !! key)), None) c'
                  ∧ elements c' = delete key (elements c)
                  ∧ size c' = size c ∧ quiescent c')
      as (c' & HR & He & Hs & Hq).
    { unfold Remove, deferring, bind, Lock, pool_Get.
      rewrite Hl. simpl. rewrite Hpick. unfold ret at 1.
      destruct (elements c !! key) as [e|] eqn:Hk.
      - rewrite Remove_range_found; [| |simpl; eauto].
        + rewrite bool_decide_eq_true_2 by eauto. eexists.
          split; [reflexivity|]. simpl. repeat split; try done.
          by apply pool_rest_blank.
        + apply (range_order_elem _ _ _ Ho). eauto.
      - rewrite Remove_range_absent by done.
        rewrite bool_decide_eq_false_2 by (by intros [? ?]). eexists.
        split; [reflexivity|]. simpl. rewrite delete_id by done.
        repeat split; try done. by apply pool_rest_blank. }
    exists c'. repeat split; try done.
    intros te th probe'. rewrite (Get_quiescent _ _ _ _ _ Hq).
    rewrite He, lookup_delete_eq. simpl. eauto.
Qed.

Lemma Remove_in_reachable_state_witness :
  ∃ c', Remove None ["b"; "a"] "a" cache_ab
        = Ret (bool_decide (is_Some (elements cache_ab !! "a")), None) c'
        ∧ elements c' = delete "a" (elements cache_ab)
        ∧ size c' = size cache_ab
        ∧ ∀ te th probe', ∃ c2, Get te th probe' "a" c' = Ret (Nil, None) c2.
Proof.
  apply (Remove_in_reachable_state cache_ab None ["b"; "a"] "a").
  - exact reachable_cache_ab.
  - reflexivity.
  - compute_done.
Defined.

(** ** RemoveExpired *)

(** X5: [RemoveExpired] never deletes anything. Called with the lock
    free, it returns, with the cache exactly as it was, when no entry has
    [0 < Expiration < now]; it blocks forever when some entry has. An
    entry whose [Expiration] is zero or negative is never due. *)
Theorem RemoveExpired_returns_or_blocks c now probe order :
  lock c = Unlocked → range_order (elements c) order →
  ((∀ k v, elements c !! k = Some v → Expiration v <= 0 ∨ now <= Expiration v)
   → RemoveExpired now probe order c = Ret tt c)
  ∧ ((∃ k v, elements c !! k = Some v ∧ 0 < Expiration v ∧ Expiration v < now)
     → RemoveExpired now probe order c = Blocked)
  ∧ (∀ c', RemoveExpired now probe order c = Ret tt c' → c' = c).
Proof.
  intros Hl Ho. rewrite (RemoveExpired_unlocked _ _ _ _ Hl).
  pose proof (sweep_hits_true now _ _ Ho) as Hhit.
  destruct (sweep_hits now (elements c) order).
  - split; [|split].
    + intros Hnone. destruct (proj1 Hhit eq_refl) as (k & v & Hv & ? & ?).
      destruct (Hnone k v Hv); lia.
    + done.
    + done.
  - split; [|split].
    + done.
    + intros Hsome. apply Hhit in Hsome. discriminate.
    + by intros c' [= <-].
Qed.

Lemma RemoveExpired_returns_or_blocks_witness :
  RemoveExpired 5000 None ["b"; "a"] cache_ab = Ret tt cache_ab
  ∧ RemoveExpired late None ["b"; "a"] cache_ab = Blocked.
Proof.
  split.
  - apply (RemoveExpired_returns_or_blocks cache_ab 5000 None ["b"; "a"]);
      [reflexivity|compute_done|].
    intros k v Hv. right.
    destruct (decide (k = "a")) as [->|Ha]; [|destruct (decide (k = "b")) as [->|Hb]].
    + vm_compute in Hv. injection Hv as <-. vm_compute. discriminate.
    + vm_compute in Hv. injection Hv as <-. vm_compute. discriminate.
    + unfold cache_ab in Hv. simpl in Hv.
      rewrite lookup_insert_ne, lookup_singleton_ne in Hv by done. done.
  - apply (RemoveExpired_returns_or_blocks cache_ab late None ["b"; "a"]);
      [reflexivity|compute_done|].
    exists "a", elem_a. split; [vm_compute; reflexivity|].
    split; vm_compute; reflexivity.
Defined.

(** ** Get *)

(** X6: [Get] touches nothing but the pool, in any state at all. It
    never panics; when it returns, the map, [size], [capacity] and the
    default expiration are unchanged, and the pool has lost the item the
    probe picked. *)
Theorem Get_only_drains_pool c te th probe key :
  (∀ c', Get te th probe key c ≠ Panic c')
  ∧ (∀ r c', Get te th probe key c = Ret r c' →
       elements c' = elements c
       ∧ size c' = size c
       ∧ capacity c' = capacity c
       ∧ defaultExpiration c' = defaultExpiration c
       ∧ pool c' = pool_rest probe (pool c)).
Proof.
  unfold Get, bind, pool_Get.
  destruct (Get_fast_path _ _).
  - split; [done|]. intros r c' [= _ <-]. done.
  - unfold deferring, bind, RLock. simpl.
    destruct (lock c) as [|n|]; simpl; [| |done];
      (destruct (elements c !! key);
       (split; [done|]); intros r c' [= _ <-];
       unfold RUnlock; simpl; by repeat case_match).
Qed.

Lemma Get_only_drains_pool_witness :
  let c' := set_pool [PtrElem elem_b] cache_ab in
  Get 5000 5001 (Some 1%nat) "a" cache_ab = Ret (Int 1, None) c'
  ∧ elements c' = elements cache_ab
  ∧ size c' = size cache_ab
  ∧ capacity c' = capacity cache_ab
  ∧ defaultExpiration c' = defaultExpiration cache_ab
  ∧ pool c' = pool_rest (Some 1%nat) (pool cache_ab).
Proof.
  assert (Get 5000 5001 (Some 1%nat) "a" cache_ab
          = Ret (Int 1, None) (set_pool [PtrElem elem_b] cache_ab)) as HG
    by (vm_compute; reflexivity).
  split; [exact HG|].
  exact (proj2 (Get_only_drains_pool cache_ab 5000 5001 (Some 1%nat) "a")
           _ _ HG).
Defined.

(** ** Flush *)

(** X7: [Flush] empties the map and nothing else. In every reachable
    state in which the lock is free it returns nil; afterwards the map
    is empty, [size] and [capacity] are what they were, and as long as
    the cache stays as [Flush] left it every [Get] returns nil and a
    second [Flush] leaves the map empty. *)
Theorem Flush_empties_map c probe :
  reachable c → lock c = Unlocked →
  ∃ c1, Flush probe c = Ret None c1
        ∧ elements c1 = ∅
        ∧ size c1 = size c
        ∧ capacity c1 = capacity c
        ∧ (∀ te th probe' key,
             ∃ c2, Get te th probe' key c1 = Ret (Nil, None) c2)
        ∧ (∀ probe', ∃ c2, Flush probe' c1 = Ret None c2 ∧ elements c2 = ∅).
Proof.
  intros Hr Hl. pose proof (reachable_quiescent c Hr Hl) as [_ Hp].
  rewrite (Flush_unlocked _ _ Hl). eexists. split; [reflexivity|].
  repeat split.
  - intros te th probe' key. rewrite Get_quiescent.
    + simpl. rewrite lookup_empty. eauto.
    + split; [done|]. simpl. by apply pool_rest_blank.
  - intros probe'. rewrite Flush_unlocked by done. eauto.
Qed.

Lemma Flush_empties_map_witness :
  ∃ c1, Flush (Some 0%nat) cache_ab = Ret None c1
        ∧ elements c1 = ∅
        ∧ size c1 = size cache_ab
        ∧ capacity c1 = capacity cache_ab
        ∧ (∀ te th probe' key,
             ∃ c2, Get te th probe' key c1 = Ret (Nil, None) c2)
        ∧ (∀ probe', ∃ c2, Flush probe' c1 = Ret None c2 ∧ elements c2 = ∅).
Proof.
  apply (Flush_empties_map cache_ab (Some 0%nat)).
  - exact reachable_cache_ab.
  - reflexivity.
Defined.

(** ** Eviction, in general *)

(** X8: what [removeLeastVisited] can and cannot do. Called with the
    lock free it returns nil and changes only the map. It never adds or
    alters an entry; every entry already expired at the time of the scan
    survives it; and it deletes at most [DEFAULT_LRU_CLEAN_SIZE] = 20
    entries, whatever the order of the scan. *)
Theorem removeLeastVisited_bounds c t order :
  lock c = Unlocked →
  ∃ c', removeLeastVisited t order c = Ret None c'
        ∧ size c' = size c ∧ capacity c' = capacity c
        ∧ pool c' = pool c ∧ lock c' = Unlocked
        ∧ (∀ k v, elements c' !! k = Some v → elements c !! k = Some v)
        ∧ (∀ k v, elements c !! k = Some v → Expiration v <= t →
                  elements c' !! k = Some v)
        ∧ (base.size (elements c)
           ≤ base.size (elements c') + DEFAULT_LRU_CLEAN_SIZE)%nat.
Proof.
  intros Hl. rewrite (removeLeastVisited_unlocked _ _ _ Hl).
  eexists. split; [reflexivity|]. simpl. repeat split; try done.
  - intros k v. apply evict_lookup_Some.
  - intros k v Hk Hexp.
    destruct (evict t order (elements c) !! k) as [v'|] eqn:He.
    + apply evict_lookup_Some in He. congruence.
    + pose proof (evict_only_unexpired _ _ _ _ _ Hk He). lia.
  - apply evict_at_most_window.
Qed.

Lemma removeLeastVisited_bounds_witness :
  ∃ c', removeLeastVisited late ["b"; "a"] cache_ab = Ret None c'
        ∧ size c' = size cache_ab ∧ capacity c' = capacity cache_ab
        ∧ pool c' = pool cache_ab ∧ lock c' = Unlocked
        ∧ (∀ k v, elements c' !! k = Some v → elements cache_ab !! k = Some v)
        ∧ (∀ k v, elements cache_ab !! k = Some v → Expiration v <= late →
                  elements c' !! k = Some v)
        ∧ (base.size (elements cache_ab)
           ≤ base.size (elements c') + DEFAULT_LRU_CLEAN_SIZE)%nat.
Proof.
  apply (removeLeastVisited_bounds cache_ab late ["b"; "a"]). reflexivity.
Defined.

(** ** Put below capacity *)

(** X9: below capacity nothing is evicted. In any state with the lock
    free and [size + 1 <= capacity], [Put] of a key that is not in the
    map adds the new entry and nothing else: every other key keeps its
    entry, [size] grows by one (in [int64]) and a pointer to the new
    entry is put in the pool. *)
Theorem Put_below_capacity_only_adds c te th tv order key value :
  lock c = Unlocked → wrap64 (size c + 1) <= capacity c →
  elements c !! key = None →
  ∃ c', Put te th tv order key value c = Ret None c'
        ∧ elements c' = <[key := fresh_entry te th value]> (elements c)
        ∧ size c' = wrap64 (size c + 1)
        ∧ pool c' = PtrElem (fresh_entry te th value) :: pool c.
Proof.
  intros Hl Hcap Hk.
  rewrite (Put_unlocked _ _ _ _ _ _ _ Hl). cbv zeta.
  unfold after_capacity_check.
  destruct (Z.gtb_spec (wrap64 (size c + 1)) (capacity c)); [lia|].
  rewrite Hk. eexists. split; [reflexivity|]. done.
Qed.

Lemma Put_below_capacity_only_adds_witness :
  ∃ c', Put 2000 2001 2002 ["a"] "b" (Int 2) cache_a = Ret None c'
        ∧ elements c' = <["b" := fresh_entry 2000 2001 (Int 2)]> (elements cache_a)
        ∧ size c' = wrap64 (size cache_a + 1)
        ∧ pool c' = PtrElem (fresh_entry 2000 2001 (Int 2)) :: pool cache_a.
Proof.
  apply (Put_below_capacity_only_adds cache_a 2000 2001 2002 ["a"] "b" (Int 2)).
  - reflexivity.
  - vm_compute. discriminate.
  - vm_compute; reflexivity.
Defined.

(** ** Entries are never rewritten *)

Lemma run_op_entries o c c' k e :
  quiescent c → run_op o c = Ret tt c' ∨ run_op o c = Panic c' →
  elements c' !! k = Some e →
  elements c !! k = Some e
  ∨ ∃ te th tv order value,
      o = OpPut te th tv order k value ∧ e = fresh_entry te th value.
Proof.
  intros Hq Hrun. pose proof Hq as [Hl Hp].
  destruct o as [te th probe key|te th tv order key value|probe order key
                |probe|now probe order]; simpl in Hrun;
    (destruct Hrun as [Hrun|Hrun];
     [apply forget_ret in Hrun as [a Hrun]|apply forget_panic in Hrun]).
  - rewrite (Get_quiescent _ _ _ _ _ Hq) in Hrun. simplify_eq. by left.
  - rewrite (Get_quiescent _ _ _ _ _ Hq) in Hrun. done.
  - rewrite (Put_unlocked _ _ _ _ _ _ _ Hl) in Hrun. simplify_eq. cbv zeta.
    destruct (after_capacity_check tv order c !! key) eqn:Hkey; simpl.
    + intros He. left. by apply after_capacity_check_lookup_Some in He.
    + intros He. destruct (decide (key = k)) as [->|Hne].
      * rewrite lookup_insert_eq in He. simplify_eq. right.
        by eexists _, _, _, _, _.
      * rewrite lookup_insert_ne in He by done. left.
        by apply after_capacity_check_lookup_Some in He.
  - rewrite (Put_unlocked _ _ _ _ _ _ _ Hl) in Hrun. done.
  - destruct (pool_pick probe (pool c)) as [x|] eqn:Hpick.
    + destruct (pool_pick_blank _ _ _ Hp Hpick) as (e' & -> & _).
      rewrite (Remove_pointer _ _ _ _ _ Hl Hpick) in Hrun. done.
    + destruct (Remove_nil _ order key _ Hl Hpick) as [b Hb].
      rewrite Hb in Hrun. simplify_eq. simpl. destruct b; [|by left].
      intros He. left. by apply lookup_delete_Some in He as [_ He].
  - destruct (pool_pick probe (pool c)) as [x|] eqn:Hpick.
    + destruct (pool_pick_blank _ _ _ Hp Hpick) as (e' & -> & _).
      rewrite (Remove_pointer _ _ _ _ _ Hl Hpick) in Hrun. simplify_eq.
      by left.
    + destruct (Remove_nil _ order key _ Hl Hpick) as [b Hb].
      rewrite Hb in Hrun. done.
  - rewrite (Flush_unlocked _ _ Hl) in Hrun. simplify_eq. simpl.
    by rewrite lookup_empty.
  - rewrite (Flush_unlocked _ _ Hl) in Hrun. done.
  - rewrite (RemoveExpired_unlocked _ _ _ _ Hl) in Hrun.
    destruct (sweep_hits now (elements c) order); simplify_eq. by left.
  - rewrite (RemoveExpired_unlocked _ _ _ _ Hl) in Hrun.
    by destruct (sweep_hits now (elements c) order).
Qed.

(** X10: no operation rewrites an entry. Whatever a call does from a
    reachable state (return or panic), an entry found in the map after
    it is either the entry that was under the same key before, with the
    same value and timestamps, or the entry a [Put] of that very key has
    just built. *)
Theorem entries_are_never_rewritten o c c' k e :
  reachable c → run_op o c = Ret tt c' ∨ run_op o c = Panic c' →
  elements c' !! k = Some e →
  elements c !! k = Some e
  ∨ ∃ te th tv order value,
      o = OpPut te th tv order k value ∧ e = fresh_entry te th value.
Proof.
  intros Hr Hrun. apply run_op_entries; [|done].
  by apply (reachable_completes o c c').
Qed.

Lemma entries_are_never_rewritten_witness :
  elements cache_ab !! "c" = Some elem_c
  ∨ ∃ te th tv order value,
      OpPut 3000 3001 3002 ["a"; "b"] "c" (Int 3)
      = OpPut te th tv order "c" value
      ∧ elem_c = fresh_entry te th value.
Proof.
  apply (entries_are_never_rewritten
           (OpPut 3000 3001 3002 ["a"; "b"] "c" (Int 3))
           cache_ab cache_abc "c" elem_c).
  - exact reachable_cache_ab.
  - left. vm_compute; reflexivity.
  - vm_compute; reflexivity.
Defined.

(** X11: the [K] field is never filled in. In every reachable state each
    entry of the map has [K] equal to the empty string, whatever key it
    is stored under. *)
Theorem stored_entries_have_empty_K c k e :
  reachable c → elements c !! k = Some e → K e = "".
Proof.
  intros Hr. revert k e.
  induction Hr as [params|o c c' Hr IH _ Hrun|o c c' Hr IH _ Hrun|i c Hr IH
                  |now probe order c Hr IH _ _];
    intros k e He.
  - destruct params; simpl in He; by rewrite lookup_empty in He.
  - apply (reachable_completes o c c') in Hr; [|by left].
    destruct (run_op_entries o c c' k e Hr (or_introl Hrun) He)
      as [Hold|(te & th & tv & order & value & _ & ->)]; [eauto|done].
  - apply (reachable_completes o c c') in Hr; [|by right].
    destruct (run_op_entries o c c' k e Hr (or_intror Hrun) He)
      as [Hold|(te & th & tv & order & value & _ & ->)]; [eauto|done].
  - eauto.
  - eauto.
Qed.

Lemma stored_entries_have_empty_K_witness : K elem_c = "".
Proof.
  apply (stored_entries_have_empty_K cache_abc "c" elem_c).
  - apply (reach_ret (OpPut 3000 3001 3002 ["a"; "b"] "c" (Int 3)) cache_ab).
    + exact reachable_cache_ab.
    + exact range_order_ab.
    + vm_compute; reflexivity.
  - vm_compute; reflexivity.
Defined.

(** ** The size counter against the entry count *)

Lemma wrap64_succ z : 0 <= z < 2 ^ 63 - 1 → wrap64 (z + 1) = z + 1.
Proof. intros Hz. unfold wrap64. rewrite Z.mod_small; lia. Qed.

Lemma evict_size t order m : (base.size (evict t order m) ≤ base.size m)%nat.
Proof.
  apply map_subseteq_size, map_subseteq_spec. intros k v.
  apply evict_lookup_Some.
Qed.

Lemma after_capacity_check_size tv order c :
  (base.size (after_capacity_check tv order c) ≤ base.size (elements c))%nat.
Proof.
  unfold after_capacity_check. destruct (_ >? _); [apply evict_size|lia].
Qed.

Lemma run_op_counts o c c' :
  quiescent c → run_op o c = Ret tt c' →
  capacity c' = capacity c
  ∧ ((size c' = size c
      ∧ (base.size (elements c') ≤ base.size (elements c))%nat)
     ∨ (size c' = wrap64 (size c + 1)
        ∧ (base.size (elements c') ≤ S (base.size (elements c)))%nat)).
Proof.
  intros Hq Hrun. pose proof Hq as [Hl Hp].
  destruct o as [te th probe key|te th tv order key value|probe order key
                |probe|now probe order]; simpl in Hrun;
    apply forget_ret in Hrun as [a Hrun].
  - rewrite (Get_quiescent _ _ _ _ _ Hq) in Hrun. simplify_eq.
    split; [done|]. left. done.
  - rewrite (Put_unlocked _ _ _ _ _ _ _ Hl) in Hrun. simplify_eq. cbv zeta.
    pose proof (after_capacity_check_size tv order c) as Hsz.
    destruct (after_capacity_check tv order c !! key) eqn:Hkey; simpl.
    + split; [done|]. left. done.
    + split; [done|]. right. split; [done|].
      rewrite map_size_insert_None by done. lia.
  - destruct (pool_pick probe (pool c)) as [x|] eqn:Hpick.
    + destruct (pool_pick_blank _ _ _ Hp Hpick) as (e' & -> & _).
      rewrite (Remove_pointer _ _ _ _ _ Hl Hpick) in Hrun. done.
    + destruct (Remove_nil _ order key _ Hl Hpick) as [b Hb].
      rewrite Hb in Hrun. simplify_eq. simpl. split; [done|]. left.
      split; [done|]. destruct b; [|done].
      apply map_subseteq_size, delete_subseteq.
  - rewrite (Flush_unlocked _ _ Hl) in Hrun. simplify_eq. simpl.
    split; [done|]. left. split; [done|]. rewrite map_size_empty. lia.
  - rewrite (RemoveExpired_unlocked _ _ _ _ Hl) in Hrun.
    destruct (sweep_hits now (elements c) order); simplify_eq.
    split; [done|]. left. done.
Qed.

Lemma run_ops_counts ops c0 c :
  quiescent c0 → 0 <= size c0 →
  size c0 + Z.of_nat (length ops) < 2 ^ 63 →
  Z.of_nat (base.size (elements c0)) <= size c0 →
  run_ops ops c0 = Ret tt c →
  capacity c = capacity c0
  ∧ size c0 <= size c <= size c0 + Z.of_nat (length ops)
  ∧ Z.of_nat (base.size (elements c)) <= size c.
Proof.
  revert c0. induction ops as [|o rest IH]; intros c0 Hq H0 Hlen Hsz Hrun.
  - simpl in Hrun. injection Hrun as <-. simpl. lia.
  - simpl in Hrun. unfold bind in Hrun.
    destruct (run_op o c0) as [[] c1| |] eqn:Ho; [|done..].
    pose proof (run_op_quiescent o c0 c1 Hq (or_introl Ho)) as Hq1.
    destruct (run_op_counts o c0 c1 Hq Ho) as [Hcap Hcnt].
    change (length (o :: rest)) with (S (length rest)) in *.
    assert (size c0 <= size c1 <= size c0 + 1
            ∧ Z.of_nat (base.size (elements c1)) <= size c1) as [Hs1 Hm1].
    { destruct Hcnt as [[-> Hm]|[-> Hm]].
      - lia.
      - rewrite wrap64_succ by lia. lia. }
    destruct (IH c1 Hq1) as (Hc & Hs & Hm); [lia|lia|lia|done|].
    split; [congruence|]. lia.
Qed.

(** X12: [size] is only ever an overestimate. After any sequence of
    fewer than 2^63 calls on a new cache that all return, [size] is at
    least the number of entries in the map and at most the number of
    calls made, and [capacity] is still the one the cache was built
    with. *)
Theorem size_overestimates_entries params ops c :
  run_ops ops (NewCache params).1 = Ret tt c →
  Z.of_nat (length ops) < 2 ^ 63 →
  capacity c = capacity (NewCache params).1
  ∧ Z.of_nat (base.size (elements c)) <= size c
  ∧ size c <= Z.of_nat (length ops).
Proof.
  intros Hrun Hlen.
  assert (quiescent (NewCache params).1 ∧ size (NewCache params).1 = 0
          ∧ base.size (elements (NewCache params).1) = 0%nat)
    as (Hq & Hs0 & Hm0).
  { destruct params; repeat split; simpl; by try constructor. }
  destruct (run_ops_counts ops _ c Hq) as (Hc & Hs & Hm);
    try done; try lia.
Qed.

Lemma size_overestimates_entries_witness :
  capacity cache_abc = capacity (NewCache [2]).1
  ∧ Z.of_nat (base.size (elements cache_abc)) <= size cache_abc
  ∧ size cache_abc <= Z.of_nat (length
      [OpPut 1000 1001 1002 [] "a" (Int 1);
       OpPut 2000 2001 2002 ["a"] "b" (Int 2);
       OpPut 3000 3001 3002 ["a"; "b"] "c" (Int 3)]).
Proof.
  apply (size_overestimates_entries [2]
           [OpPut 1000 1001 1002 [] "a" (Int 1);
            OpPut 2000 2001 2002 ["a"] "b" (Int 2);
            OpPut 3000 3001 3002 ["a"; "b"] "c" (Int 3)] cache_abc).
  - vm_compute; reflexivity.
  - vm_compute; reflexivity.
Defined.

(** ** The lock *)



(** ** Eviction in a store with at most twenty live entries *)

Lemma window_prefix_snoc t l s k v :
  window_prefix l s → (length l < DEFAULT_LRU_CLEAN_SIZE)%nat →
  (Expiration v >? t) = true →
  window_prefix (l ++ [k]) (scan_step t s k v).
Proof.
  intros (Hitems & Hcount & Hfull) Hlen Hexp. unfold scan_step.
  rewrite Hexp, Hfull. simpl.
  destruct (Nat.ltb_spec (liCount s) DEFAULT_LRU_CLEAN_SIZE) as [_|Hge];
    [|lia].
  split; [|split]; simpl.
  - rewrite Hitems, Hcount. rewrite insert_app_r_alt by lia.
    rewrite Nat.sub_diag, length_app. simpl.
    destruct (DEFAULT_LRU_CLEAN_SIZE - length l)%nat as [|n] eqn:Hn; [lia|].
    replace (DEFAULT_LRU_CLEAN_SIZE - (length l + 1))%nat with n by lia.
    simpl. by rewrite <- app_assoc.
  - rewrite Hcount, length_app. simpl. lia.
  - done.
Qed.

Lemma scan_small t m order : ∀ l s,
  window_prefix l s →
  (length l + length (live_keys t m order) ≤ DEFAULT_LRU_CLEAN_SIZE)%nat →
  window_prefix (l ++ live_keys t m order)
    (foldl (λ s k, match m !! k with
                   | Some v => scan_step t s k v
                   | None => s
                   end) s order).
Proof.
  induction order as [|k rest IH]; intros l s Hs Hlen; simpl.
  - by rewrite app_nil_r.
  - unfold live_keys in *. cbn [List.filter] in *.
    destruct (is_live t m k) eqn:Hlive; unfold is_live in Hlive.
    + destruct (m !! k) as [v|] eqn:Hk; [|done].
      cbn [length] in Hlen.
      replace (l ++ k :: List.filter (is_live t m) rest)
        with ((l ++ [k]) ++ List.filter (is_live t m) rest)
        by (by rewrite <- app_assoc).
      apply IH.
      * apply window_prefix_snoc; [done|lia|done].
      * rewrite length_app. simpl. lia.
    + destruct (m !! k) as [v|] eqn:Hk; [|by apply IH].
      unfold scan_step at 2. rewrite Hlive. by apply IH.
Qed.

Lemma delete_items_prefix l n : ∀ m k,
  "" ∉ l →
  delete_items (l ++ replicate n "") m !! k
  = if decide (k ∈ l) then None else m !! k.
Proof.
  induction l as [|i l IH]; intros m k Hblank.
  - rewrite decide_False by apply not_elem_of_nil.
    destruct n; [done|]. cbn. by rewrite decide_True.
  - apply not_elem_of_cons in Hblank as [Hi Hl].
    cbn [app delete_items].
    rewrite decide_False by done. rewrite IH by done.
    destruct (decide (k ∈ l)) as [Hin|Hnin].
    + rewrite decide_True by (by right). done.
    + destruct (decide (k = i)) as [->|Hne].
      * rewrite decide_True by left. apply lookup_delete_eq.
      * rewrite decide_False by (intros [?|?]%elem_of_cons; done).
        by apply lookup_delete_ne.
Qed.

Lemma evict_small t order m k :
  range_order m order →
  (length (live_keys t m order) ≤ DEFAULT_LRU_CLEAN_SIZE)%nat →
  is_live t m "" = false →
  evict t order m !! k = if is_live t m k then None else m !! k.
Proof.
  intros Ho Hlen Hblank. unfold evict, scan_all.
  assert (window_prefix [] scan_init) as Hinit by done.
  destruct (scan_small t m order [] scan_init Hinit) as (-> & _ & _);
    [simpl; lia|]. simpl.
  assert (∀ x, x ∈ live_keys t m order ↔ x ∈ order ∧ is_live t m x = true)
    as Hlive.
  { intros x. unfold live_keys. rewrite !list_elem_of_In.
    apply filter_In. }
  rewrite delete_items_prefix.
  - destruct (is_live t m k) eqn:Hk.
    + rewrite decide_True; [done|]. apply Hlive. split; [|done].
      apply (range_order_elem m); [done|].
      unfold is_live in Hk. by destruct (m !! k).
    + rewrite decide_False; [done|]. intros Hin. apply Hlive in Hin as [_ ?].
      congruence.
  - intros Hin. apply Hlive in Hin as [_ ?]. congruence.
Qed.

(** X14: in a store with at most twenty unexpired entries, eviction
    takes them all. If the scan meets no more than
    [DEFAULT_LRU_CLEAN_SIZE] unexpired entries and the empty string is
    not the key of one, [removeLeastVisited] deletes every unexpired
    entry, whatever its last hit, and keeps exactly the expired ones. *)
Theorem removeLeastVisited_wipes_small_store c t order :
  lock c = Unlocked → range_order (elements c) order →
  (length (live_keys t (elements c) order) ≤ DEFAULT_LRU_CLEAN_SIZE)%nat →
  is_live t (elements c) "" = false →
  ∃ c', removeLeastVisited t order c = Ret None c'
        ∧ ∀ k, elements c' !! k
               = if is_live t (elements c) k then None else elements c !! k.
Proof.
  intros Hl Ho Hlen Hblank. rewrite (removeLeastVisited_unlocked _ _ _ Hl).
  eexists. split; [reflexivity|]. intros k. simpl. by apply evict_small.
Qed.

Lemma removeLeastVisited_wipes_small_store_witness :
  ∃ c', removeLeastVisited 3002 ["a"; "b"] cache_ab = Ret None c'
        ∧ ∀ k, elements c' !! k
               = if is_live 3002 (elements cache_ab) k then None
                 else elements cache_ab !! k.
Proof.
  apply (removeLeastVisited_wipes_small_store cache_ab 3002 ["a"; "b"]).
  - reflexivity.
  - exact range_order_ab.
  - vm_compute. lia.
  - vm_compute; reflexivity.
Defined.



(** ** Once full, always full *)

Lemma run_ops_size_monotone ops : ∀ c0 c,
  quiescent c0 → 0 <= size c0 →
  size c0 + Z.of_nat (length ops) < 2 ^ 63 →
  run_ops ops c0 = Ret tt c →
  capacity c = capacity c0
  ∧ size c0 <= size c <= size c0 + Z.of_nat (length ops).
Proof.
  induction ops as [|o rest IH]; intros c0 c Hq H0 Hlen Hrun.
  - simpl in Hrun. injection Hrun as <-. simpl. split; [done|lia].
  - simpl in Hrun. unfold bind in Hrun.
    destruct (run_op o c0) as [[] c1| |] eqn:Ho; [|done..].
    pose proof (run_op_quiescent o c0 c1 Hq (or_introl Ho)) as Hq1.
    destruct (run_op_counts o c0 c1 Hq Ho) as [Hcap Hcnt].
    change (length (o :: rest)) with (S (length rest)) in *.
    assert (size c0 <= size c1 <= size c0 + 1) as Hs1.
    { destruct Hcnt as [[-> _]|[-> _]]; [lia|].
      rewrite wrap64_succ by lia. lia. }
    destruct (IH c1 c Hq1) as (Hc & Hs); [lia|lia|done|].
    split; [congruence|lia].
Qed.

(** X16: nothing ever makes room. Once a reachable cache has
    [size + 1 > capacity], it keeps it through any sequence of calls
    that return ([Remove] and [Flush] included, as long as [size] stays
    below 2^63 - 1): the capacity check of every later [Put] sends it to
    eviction. *)
Theorem full_cache_stays_full c0 ops c :
  reachable c0 → 0 <= size c0 →
  size c0 + Z.of_nat (length ops) < 2 ^ 63 - 1 →
  capacity c0 < size c0 + 1 →
  run_ops ops c0 = Ret tt c →
  (wrap64 (size c + 1) >? capacity c) = true.
Proof.
  intros Hr H0 Hlen Hfull Hrun.
  destruct ops as [|o rest].
  - simpl in Hrun. injection Hrun as <-. rewrite wrap64_succ by lia. lia.
  - assert (quiescent c0) as Hq.
    { simpl in Hrun. unfold bind in Hrun.
      destruct (run_op o c0) as [[] c1| |] eqn:Ho; [|done..].
      apply (reachable_completes o c0 c1 Hr). by left. }
    destruct (run_ops_size_monotone (o :: rest) c0 c Hq H0) as [Hcap Hs];
      [lia|done|].
    rewrite wrap64_succ by lia. lia.
Qed.

Lemma full_cache_stays_full_witness :
  ∃ c, run_ops [OpRemove None ["a"; "b"] "a"; OpFlush None] cache_ab
       = Ret tt c
       ∧ (wrap64 (size c + 1) >? capacity c) = true.
Proof.
  eexists. split; [vm_compute; reflexivity|].
  apply (full_cache_stays_full cache_ab
           [OpRemove None ["a"; "b"] "a"; OpFlush None]).
  - exact reachable_cache_ab.
  - vm_compute; discriminate.
  - vm_compute; reflexivity.
  - vm_compute; reflexivity.
  - vm_compute; reflexivity.
Defined.

(** ** The blocked sweep *)

(** The state with the lock held is one the caller really finds:
    [NewCache(2); Put("a", 1)], then a tick of the janitor one
    nanosecond after "a" has expired. From then on every call of the
    caller blocks. *)
Lemma reachable_cache_a_locked :
  reachable cache_a_locked ∧ ∀ o, run_op o cache_a_locked = Blocked.
Proof.
  assert (reachable cache_a_locked) as Hr.
  { apply (reach_sweep_stuck late None ["a"] cache_a).
    - exact reachable_cache_a.
    - exact range_order_a.
    - vm_compute; reflexivity. }
  split; [exact Hr|]. intros o. apply run_op_locked; [reflexivity|].
  by apply reachable_shape.
Qed.

End Memory.
